(** * ufw: ring-buffer iterator and range validator

    A shallow embedding of [c/ring-buffer-iter.c] and of the
    [RangeValidator] template of [c++/Validator.h], with the properties
    of the index walker: wrap-around arithmetic, exhaustion, and the
    behaviour of the unsigned step counter. *)

From Stdlib Require Import ZArith Lia List Bool.
Import ListNotations.
Open Scope Z_scope.

(* ================================================================== *)
(** ** c++/Validator.h *)
(* ================================================================== *)

Module Validator.

(** "The data type used with this validator has to have the <= and >=
    operators defined for it": the interface the template relies on. *)
Class Comparable (T : Type) : Type := {
  op_le : T -> T -> bool;      (* a <= b *)
  op_ge : T -> T -> bool       (* a >= b *)
}.

(** [template <typename T> class RangeValidator], with its two private
    constants; the constructor [RangeValidator(min_, max_)] is the
    record constructor. *)
Record RangeValidator (T : Type) : Type := mkRangeValidator {
  min : T;
  max : T
}.
Arguments mkRangeValidator {T} _ _.
Arguments min {T} _.
Arguments max {T} _.

(** [bool operator()(const T v) const { return v >= min && v <= max; }] *)
Definition call {T : Type} `{Comparable T} (rv : RangeValidator T) (v : T) : bool :=
  op_ge v (min rv) && op_le v (max rv).

(** [template <typename T> class TrivialValidator]:
    [bool operator()(UNUSED T v) const { return true; }] *)
Definition trivial_call {T : Type} (v : T) : bool := true.

(** The built-in comparison of a C++ integer type. *)
#[global] Instance Comparable_Z : Comparable Z := {
  op_le := Z.leb;
  op_ge := Z.geb
}.

End Validator.

(* ================================================================== *)
(** ** c/ring-buffer-iter.c *)
(* ================================================================== *)

Module RingBufferIter.

(** Modelled from the spec: the header [ring-buffer-iter.h], which
    declares [rb_iter_mode] and [rb_iter], is not among the sources.
    The spec gives the walker a direction out of two, and the [switch]
    of [rb_iter_advance] has exactly these two cases. *)
Inductive rb_iter_mode : Type :=
| RING_BUFFER_ITER_OLD_TO_NEW
| RING_BUFFER_ITER_NEW_TO_OLD.

(** Modelled from the spec: the fields [rb_iter_advance] and
    [rb_iter_done] access.  [index], [size] and [steps] are taken to be
    [size_t], the type [rb_iter_advance] returns [iter->index] at. *)
Record rb_iter : Type := mk_rb_iter {
  mode  : rb_iter_mode;
  index : Z;      (* spec: position  *)
  size  : Z;      (* spec: capacity  *)
  steps : Z       (* spec: remaining *)
}.

(** *** A state monad over the iterator the functions get a pointer to *)

Definition M (A : Type) : Type := rb_iter -> A * rb_iter.

Definition ret {A : Type} (a : A) : M A := fun it => (a, it).

Definition bind {A B : Type} (c : M A) (k : A -> M B) : M B :=
  fun it => let (a, it') := c it in k a it'.

Definition get : M rb_iter := fun it => (it, it).

(** [iter->index = v] *)
Definition set_index (v : Z) : M unit :=
  fun it => (tt, mk_rb_iter (mode it) v (size it) (steps it)).

(** [iter->steps = v] *)
Definition set_steps (v : Z) : M unit :=
  fun it => (tt, mk_rb_iter (mode it) (index it) (size it) v).

Declare Scope rb_scope.
Delimit Scope rb_scope with rb.
Notation "x <- c ;; k" := (bind c (fun x => k))
  (at level 61, c at next level, right associativity) : rb_scope.
Notation "c ;;; k" := (bind c (fun _ => k))
  (at level 61, right associativity) : rb_scope.

Definition eval {A : Type} (c : M A) (it : rb_iter) : A := fst (c it).
Definition exec {A : Type} (c : M A) (it : rb_iter) : rb_iter := snd (c it).

Section Width.

(** The number of bits of [size_t]. *)
Variable w : Z.

Definition modulus : Z := 2 ^ w.

(** Unsigned arithmetic of [size_t]: sums and differences are reduced
    modulo [2 ^ w].  For the non-negative operands of this file C's
    [%] is [Z.modulo]; it is undefined for a zero divisor, which
    [wf] below excludes. *)
Definition uadd (a b : Z) : Z := (a + b) mod modulus.
Definition usub (a b : Z) : Z := (a - b) mod modulus.
Definition urem (a b : Z) : Z := a mod b.

(** [[
bool rb_iter_done(rb_iter *iter)
{
    return (iter->steps == 0);
}
    ]] *)
Definition rb_iter_done : M bool :=
  (it <- get ;;
   ret (steps it =? 0))%rb.

(** [[
size_t rb_iter_advance(rb_iter *iter)
{
    switch (iter->mode) {
    case RING_BUFFER_ITER_OLD_TO_NEW:
        iter->index = (iter->index + 1) % iter->size;
        break;
    case RING_BUFFER_ITER_NEW_TO_OLD:
        iter->index = (iter->index == 0) ? iter->size - 1 : iter->index - 1;
        break;
    }

    iter->steps--;
    return iter->index;
}
    ]] *)
Definition rb_iter_advance : M Z :=
  (it <- get ;;
   match mode it with
   | RING_BUFFER_ITER_OLD_TO_NEW =>
       set_index (urem (uadd (index it) 1) (size it))
   | RING_BUFFER_ITER_NEW_TO_OLD =>
       set_index (if index it =? 0 then usub (size it) 1
                  else usub (index it) 1)
   end ;;;
   it <- get ;;
   set_steps (usub (steps it) 1) ;;;
   it <- get ;;
   ret (index it))%rb.

(** [n] calls of [rb_iter_advance] in a row, the returned indices
    collected in call order. *)
Fixpoint advance_n (n : nat) : M (list Z) :=
  match n with
  | O => ret []
  | S n' =>
      (i <- rb_iter_advance ;;
       rest <- advance_n n' ;;
       ret (i :: rest))%rb
  end.

(** The operations a holder of the iterator can perform. *)
Inductive op : Type :=
| Op_done
| Op_advance.

Definition exec_op (o : op) (it : rb_iter) : rb_iter :=
  match o with
  | Op_done => exec rb_iter_done it
  | Op_advance => exec rb_iter_advance it
  end.

Definition run (ops : list op) (it : rb_iter) : rb_iter :=
  fold_left (fun s o => exec_op o s) ops it.

(** One operation of a caller that keeps the contract of
    [rb_iter_advance]: it advances only an iterator that is not done. *)
Inductive contract_step : rb_iter -> rb_iter -> Prop :=
| contract_done (it : rb_iter) :
    contract_step it (exec rb_iter_done it)
| contract_advance (it : rb_iter) :
    eval rb_iter_done it = false ->
    contract_step it (exec rb_iter_advance it).

Inductive contract_run : rb_iter -> rb_iter -> Prop :=
| contract_nil (it : rb_iter) : contract_run it it
| contract_cons (it it' it'' : rb_iter) :
    contract_step it it' -> contract_run it' it'' -> contract_run it it''.

(** A well-formed iterator: every field is a value of [size_t], the
    capacity is positive and the position is a slot of the buffer. *)
Definition wf (it : rb_iter) : Prop :=
  0 <= index it < size it /\ size it < modulus /\ 0 <= steps it < modulus.

(** The spec's two states. *)
Inductive state : Type := Active | Exhausted.

Definition state_of (it : rb_iter) : state :=
  if eval rb_iter_done it then Exhausted else Active.

End Width.

End RingBufferIter.

Import RingBufferIter.

(* ================================================================== *)
(** ** Properties of the range validator *)
(* ================================================================== *)

Section ValidatorFacts.

Import Validator.
Context {T : Type} `{Comparable T}.

(** C9: [RangeValidator(min, max)] applied to [v] returns true exactly
    when [v >= min] and [v <= max] both hold, for the operators [>=]
    and [<=] of the value type; both limits belong to the range. *)
Theorem RangeValidator_call_iff (lo hi v : T) :
  call (mkRangeValidator lo hi) v = true <->
  op_ge v lo = true /\ op_le v hi = true.
Proof.
  unfold call; cbn [min max].
  apply andb_true_iff.
Qed.

End ValidatorFacts.

(** At an integer type the accepted values are those of the closed
    interval. *)
Lemma RangeValidator_Z_closed_interval (lo hi v : Z) :
  Validator.call (Validator.mkRangeValidator lo hi) v = true <-> lo <= v <= hi.
Proof.
  unfold Validator.call; cbn.
  rewrite andb_true_iff, Z.geb_le, Z.leb_le. tauto.
Qed.

Example RangeValidator_limits_included :
  Validator.call (Validator.mkRangeValidator 2 7) 2 = true /\
  Validator.call (Validator.mkRangeValidator 2 7) 7 = true /\
  Validator.call (Validator.mkRangeValidator 2 7) 1 = false /\
  Validator.call (Validator.mkRangeValidator 2 7) 8 = false.
Proof. repeat split. Qed.


(* ================================================================== *)
(** ** Properties of the ring-buffer iterator *)
(* ================================================================== *)

Section IterFacts.

Variable w : Z.

Local Abbreviation advance := (rb_iter_advance w).
Local Abbreviation O2N := RING_BUFFER_ITER_OLD_TO_NEW.
Local Abbreviation N2O := RING_BUFFER_ITER_NEW_TO_OLD.

(** *** What one call does to each field *)

Lemma advance_returns_index (it : rb_iter) :
  eval advance it = index (exec advance it).
Proof. destruct it as [[] i s n]; reflexivity. Qed.

Lemma advance_mode (it : rb_iter) : mode (exec advance it) = mode it.
Proof. destruct it as [[] i s n]; reflexivity. Qed.

Lemma advance_size (it : rb_iter) : size (exec advance it) = size it.
Proof. destruct it as [[] i s n]; reflexivity. Qed.

Lemma advance_steps (it : rb_iter) :
  steps (exec advance it) = usub w (steps it) 1.
Proof. destruct it as [[] i s n]; reflexivity. Qed.

Lemma advance_index_old_to_new (it : rb_iter) :
  mode it = O2N ->
  index (exec advance it) = urem (uadd w (index it) 1) (size it).
Proof. destruct it as [[] i s n]; cbn; intros E; [reflexivity | discriminate]. Qed.

Lemma advance_index_new_to_old (it : rb_iter) :
  mode it = N2O ->
  index (exec advance it) =
  if index it =? 0 then usub w (size it) 1 else usub w (index it) 1.
Proof. destruct it as [[] i s n]; cbn; intros E; [discriminate | reflexivity]. Qed.

Lemma done_eval (it : rb_iter) : eval rb_iter_done it = (steps it =? 0).
Proof. reflexivity. Qed.

Lemma done_exec (it : rb_iter) : exec rb_iter_done it = it.
Proof. reflexivity. Qed.

(** *** Unsigned arithmetic without overflow *)

Lemma wf_modulus (it : rb_iter) : wf w it -> 1 < modulus w.
Proof. unfold wf; lia. Qed.

Lemma uadd_small (a b : Z) : 0 <= a + b < modulus w -> uadd w a b = a + b.
Proof. intros; unfold uadd; now apply Z.mod_small. Qed.

Lemma usub_small (a b : Z) : 0 <= a - b < modulus w -> usub w a b = a - b.
Proof. intros; unfold usub; now apply Z.mod_small. Qed.

Lemma usub_bounds (a b : Z) : 0 < modulus w -> 0 <= usub w a b < modulus w.
Proof. intros; unfold usub; now apply Z.mod_pos_bound. Qed.

Lemma usub_zero_one : 1 < modulus w -> usub w 0 1 = modulus w - 1.
Proof.
  intros Hm; unfold usub.
  replace (0 - 1) with (-1 * modulus w + (modulus w - 1)) by ring.
  rewrite Z.add_comm, Z_mod_plus_full.
  apply Z.mod_small; lia.
Qed.

(** *** The position after one call, in closed form *)

Lemma index_old_to_new (it : rb_iter) :
  wf w it -> mode it = O2N ->
  index (exec advance it) = (index it + 1) mod size it.
Proof.
  intros (Hi & Hs & _) Hm.
  rewrite advance_index_old_to_new by assumption.
  unfold urem; rewrite uadd_small by lia; reflexivity.
Qed.

Lemma index_new_to_old (it : rb_iter) :
  wf w it -> mode it = N2O ->
  index (exec advance it) =
  if index it =? 0 then size it - 1 else index it - 1.
Proof.
  intros (Hi & Hs & _) Hm.
  rewrite advance_index_new_to_old by assumption.
  destruct (Z.eqb_spec (index it) 0); apply usub_small; lia.
Qed.

Lemma index_in_range (it : rb_iter) :
  wf w it -> 0 <= index (exec advance it) < size it.
Proof.
  intros Hwf. destruct (mode it) eqn:Hm.
  - rewrite index_old_to_new by assumption.
    apply Z.mod_pos_bound. unfold wf in Hwf; lia.
  - rewrite index_new_to_old by assumption.
    unfold wf in Hwf. destruct (Z.eqb_spec (index it) 0); lia.
Qed.

Lemma wf_advance (it : rb_iter) : wf w it -> wf w (exec advance it).
Proof.
  intros Hwf. pose proof (index_in_range it Hwf) as Hi.
  pose proof (wf_modulus it Hwf) as Hm.
  unfold wf in *. rewrite advance_size, advance_steps.
  repeat split; try lia; apply usub_bounds; lia.
Qed.

(** *** Several calls in a row *)

Lemma advance_n_S_exec (n : nat) (it : rb_iter) :
  exec (advance_n w (S n)) it = exec (advance_n w n) (exec advance it).
Proof.
  unfold exec; cbn [advance_n]; unfold bind.
  destruct (advance it) as [i it1]; cbn [snd].
  destruct (advance_n w n it1) as [l it2]; reflexivity.
Qed.

Lemma advance_n_S_eval (n : nat) (it : rb_iter) :
  eval (advance_n w (S n)) it =
  eval advance it :: eval (advance_n w n) (exec advance it).
Proof.
  unfold eval, exec; cbn [advance_n]; unfold bind.
  destruct (advance it) as [i it1]; cbn [fst snd].
  destruct (advance_n w n it1) as [l it2]; reflexivity.
Qed.

(** The last of [S n] calls is a call on the state the first [n] left. *)
Lemma advance_n_S_last (n : nat) (it : rb_iter) :
  exec (advance_n w (S n)) it = exec advance (exec (advance_n w n) it).
Proof.
  revert it; induction n as [|n IH]; intros it.
  - rewrite advance_n_S_exec; reflexivity.
  - rewrite advance_n_S_exec, IH, <- advance_n_S_exec; reflexivity.
Qed.

Lemma advance_n_length (n : nat) (it : rb_iter) :
  length (eval (advance_n w n) it) = n.
Proof.
  revert it; induction n as [|n IH]; intros it.
  - reflexivity.
  - rewrite advance_n_S_eval; cbn [length]; now rewrite IH.
Qed.

Lemma advance_n_size (n : nat) (it : rb_iter) :
  size (exec (advance_n w n) it) = size it.
Proof.
  revert it; induction n as [|n IH]; intros it.
  - reflexivity.
  - now rewrite advance_n_S_exec, IH, advance_size.
Qed.

Lemma advance_n_mode (n : nat) (it : rb_iter) :
  mode (exec (advance_n w n) it) = mode it.
Proof.
  revert it; induction n as [|n IH]; intros it.
  - reflexivity.
  - now rewrite advance_n_S_exec, IH, advance_mode.
Qed.

Lemma wf_advance_n (n : nat) (it : rb_iter) :
  wf w it -> wf w (exec (advance_n w n) it).
Proof.
  revert it; induction n as [|n IH]; intros it Hwf.
  - exact Hwf.
  - rewrite advance_n_S_exec. apply IH, wf_advance, Hwf.
Qed.

Lemma advance_n_returns_in_range (n : nat) (it : rb_iter) :
  wf w it -> Forall (fun i => 0 <= i < size it) (eval (advance_n w n) it).
Proof.
  revert it; induction n as [|n IH]; intros it Hwf.
  - constructor.
  - rewrite advance_n_S_eval. constructor.
    + rewrite advance_returns_index. now apply index_in_range.
    + rewrite <- (advance_size it). apply IH, wf_advance, Hwf.
Qed.

(** While the counter does not run out, [k] calls take [k] off it. *)
Lemma steps_after (k : nat) (it : rb_iter) :
  wf w it -> Z.of_nat k <= steps it ->
  steps (exec (advance_n w k) it) = steps it - Z.of_nat k.
Proof.
  revert it; induction k as [|k IH]; intros it Hwf Hk.
  - cbn. lia.
  - assert (Hs : steps (exec advance it) = steps it - 1).
    { rewrite advance_steps. apply usub_small. unfold wf in Hwf. lia. }
    rewrite advance_n_S_exec, IH; [lia | now apply wf_advance | lia].
Qed.

(** Walking forward [n] slots from [index it]. *)
Lemma index_after (n : nat) (it : rb_iter) :
  wf w it -> mode it = O2N ->
  index (exec (advance_n w n) it) = (index it + Z.of_nat n) mod size it.
Proof.
  revert it; induction n as [|n IH]; intros it Hwf Hm.
  - cbn [advance_n exec ret snd Z.of_nat]. rewrite Z.add_0_r.
    symmetry; apply Z.mod_small. unfold wf in Hwf; lia.
  - rewrite advance_n_S_exec, IH.
    + rewrite advance_size, index_old_to_new by assumption.
      rewrite Z.add_mod_idemp_l by (unfold wf in Hwf; lia).
      f_equal; lia.
    + now apply wf_advance.
    + now rewrite advance_mode.
Qed.

(** *** The claims *)

(** C1: for a walker with capacity at least 1 whose position is a slot
    of the buffer, after any number [n] of calls of advance, in either
    direction, every index returned so far lies in [0, capacity), the
    stored position lies in [0, capacity), and so do the index the next
    call returns and the position it leaves. *)
Theorem advance_index_in_range (it : rb_iter) (n : nat) :
  wf w it ->
  let it' := exec (advance_n w n) it in
  length (eval (advance_n w n) it) = n /\
  Forall (fun i => 0 <= i < size it) (eval (advance_n w n) it) /\
  0 <= index it' < size it /\
  0 <= eval advance it' < size it /\
  0 <= index (exec advance it') < size it /\
  size (exec advance it') = size it.
Proof.
  intros Hwf it'.
  assert (Hwf' : wf w it') by now apply wf_advance_n.
  assert (Hsz : size it' = size it) by apply advance_n_size.
  pose proof (index_in_range it' Hwf') as Hnext.
  repeat split; try (rewrite ?advance_returns_index, ?advance_size; lia).
  - apply advance_n_length.
  - now apply advance_n_returns_in_range.
  - unfold wf in Hwf'; lia.
  - unfold wf in Hwf'; lia.
Qed.

(** C2: in the old-to-new direction, with capacity at least 1 and the
    position in [0, capacity), advance stores (position + 1) mod capacity
    as the new position and returns it; with capacity 5 and position 4
    it returns 0. *)
Theorem advance_old_to_new (it : rb_iter) :
  wf w it -> mode it = O2N ->
  index (exec advance it) = (index it + 1) mod size it /\
  eval advance it = (index it + 1) mod size it /\
  (size it = 5 -> index it = 4 -> eval advance it = 0).
Proof.
  intros Hwf Hm.
  pose proof (index_old_to_new it Hwf Hm) as Hi.
  rewrite advance_returns_index.
  repeat split; try assumption.
  intros Hs Hp. rewrite Hi, Hs, Hp. reflexivity.
Qed.

(** C3: in the new-to-old direction, with capacity at least 1 and the
    position in [0, capacity), advance stores capacity - 1 when the
    position is 0 and position - 1 otherwise, and returns that value;
    with capacity 5 and position 0 it returns 4. *)
Theorem advance_new_to_old (it : rb_iter) :
  wf w it -> mode it = N2O ->
  index (exec advance it) =
    (if index it =? 0 then size it - 1 else index it - 1) /\
  eval advance it =
    (if index it =? 0 then size it - 1 else index it - 1) /\
  (size it = 5 -> index it = 0 -> eval advance it = 4).
Proof.
  intros Hwf Hm.
  pose proof (index_new_to_old it Hwf Hm) as Hi.
  rewrite advance_returns_index.
  repeat split; try assumption.
  intros Hs Hp. rewrite Hi, Hs, Hp. reflexivity.
Qed.

(** C4: on a well-formed walker holding [step_count] in [steps], each of
    the first [step_count] calls of advance finds the walker not done
    and takes exactly one off [steps]; after the last of them the walker
    is done, that is, in the Exhausted state. *)
Theorem advance_step_count_exhausts (it : rb_iter) :
  wf w it ->
  let n := Z.to_nat (steps it) in
  (forall k : nat, (k < n)%nat ->
     eval rb_iter_done (exec (advance_n w k) it) = false /\
     state_of (exec (advance_n w k) it) = Active /\
     steps (exec (advance_n w (S k)) it) =
       steps (exec (advance_n w k) it) - 1) /\
  eval rb_iter_done (exec (advance_n w n) it) = true /\
  state_of (exec (advance_n w n) it) = Exhausted.
Proof.
  intros Hwf n.
  assert (Hn : Z.of_nat n = steps it) by (unfold wf in Hwf; lia).
  split.
  - intros k Hk.
    assert (Hd : eval rb_iter_done (exec (advance_n w k) it) = false).
    { rewrite done_eval, steps_after by (assumption || lia).
      apply Z.eqb_neq; lia. }
    unfold state_of; rewrite Hd.
    repeat split.
    rewrite !steps_after by (assumption || lia). lia.
  - assert (Hd : eval rb_iter_done (exec (advance_n w n) it) = true).
    { rewrite done_eval, steps_after by (assumption || lia).
      apply Z.eqb_eq; lia. }
    unfold state_of; rewrite Hd. split; reflexivity.
Qed.

(** One operation of a caller that keeps the contract leaves [steps]
    as it is or takes one off it. *)
Lemma contract_step_steps (it it' : rb_iter) :
  wf w it -> contract_step w it it' ->
  wf w it' /\ (steps it' = steps it \/ 0 < steps it /\ steps it' = steps it - 1).
Proof.
  intros Hwf Hstep; inversion Hstep as [it0 | it0 Hnot]; subst.
  - rewrite done_exec. auto.
  - split; [now apply wf_advance|]. right.
    rewrite done_eval in Hnot. apply Z.eqb_neq in Hnot.
    assert (0 < steps it) by (unfold wf in Hwf; lia).
    split; [assumption|].
    rewrite advance_steps. apply usub_small. unfold wf in Hwf; lia.
Qed.

(** C5, as the code has it: over every sequence of operations of a
    caller that calls advance only on a walker that is not done, [steps]
    never increases and never goes below zero, and a walker that is
    Exhausted stays Exhausted.  (Nothing is said here of advance on an
    exhausted walker.) *)
Theorem contract_run_steps_decrease (it it' : rb_iter) :
  wf w it -> contract_run w it it' ->
  0 <= steps it' <= steps it /\
  (state_of it = Exhausted -> state_of it' = Exhausted).
Proof.
  intros Hwf Hrun.
  assert (H : wf w it' /\ steps it' <= steps it).
  { induction Hrun as [it | it it1 it2 Hstep Hrun IH].
    - split; [assumption | lia].
    - destruct (contract_step_steps it it1 Hwf Hstep) as [Hwf1 Hs].
      destruct (IH Hwf1) as [Hwf2 Hle]. split; [assumption | lia]. }
  destruct H as [Hwf' Hle].
  split; [unfold wf in Hwf'; lia|].
  unfold state_of; rewrite !done_eval.
  destruct (Z.eqb_spec (steps it) 0) as [E|E]; [|discriminate].
  intros _. destruct (Z.eqb_spec (steps it') 0) as [E'|E']; [reflexivity|].
  unfold wf in Hwf'; lia.
Qed.

(** C6: [rb_iter_done] returns true exactly when [steps] is 0, leaves
    the walker as it found it, and however often it is called, also on
    an exhausted walker, the walker is unchanged and the answer is the
    same. *)
Theorem rb_iter_done_pure (it : rb_iter) :
  (eval rb_iter_done it = true <-> steps it = 0) /\
  exec rb_iter_done it = it /\
  (forall n : nat,
     Nat.iter n (exec rb_iter_done) it = it /\
     eval rb_iter_done (Nat.iter n (exec rb_iter_done) it) =
       eval rb_iter_done it).
Proof.
  split; [rewrite done_eval; apply Z.eqb_eq|].
  split; [reflexivity|].
  intros n.
  assert (E : Nat.iter n (exec rb_iter_done) it = it).
  { induction n as [|n IH]; [reflexivity|].
    change (exec rb_iter_done (Nat.iter n (exec rb_iter_done) it) = it).
    now rewrite IH. }
  now rewrite E.
Qed.

(** C7: in the old-to-new direction, with capacity greater than 1 and
    any starting position [p] in [0, capacity), [capacity] calls of
    advance in a row bring the position back to [p]. *)
Theorem old_to_new_full_cycle (it : rb_iter) :
  wf w it -> mode it = O2N -> 1 < size it ->
  index (exec (advance_n w (Z.to_nat (size it))) it) = index it.
Proof.
  intros Hwf Hm Hs.
  rewrite index_after by assumption.
  rewrite Z2Nat.id by lia.
  replace (index it + size it) with (index it + 1 * size it) by ring.
  rewrite Z_mod_plus_full.
  apply Z.mod_small. unfold wf in Hwf; lia.
Qed.

(** C8: for capacity greater than 0 and a position [p] in
    [0, capacity), one old-to-new advance from [p], then one new-to-old
    advance of an independent walker placed at the resulting position,
    gives [p] again. *)
Theorem old_to_new_then_new_to_old (it : rb_iter) (s : Z) :
  wf w it -> mode it = O2N -> 0 <= s < modulus w ->
  let back := mk_rb_iter N2O (eval advance it) (size it) s in
  wf w back /\
  eval advance back = index it /\
  index (exec advance back) = index it.
Proof.
  intros Hwf Hm Hs back.
  assert (Hq : eval advance it = (index it + 1) mod size it).
  { rewrite advance_returns_index. now apply index_old_to_new. }
  assert (Hwfb : wf w back).
  { unfold wf, back; cbn [index size steps].
    rewrite advance_returns_index.
    pose proof (index_in_range it Hwf). unfold wf in Hwf. lia. }
  assert (Hback : index (exec advance back) = index it).
  { rewrite index_new_to_old by (assumption || reflexivity).
    unfold back; cbn [index size]. rewrite Hq.
    unfold wf in Hwf.
    destruct (Z.eq_dec (index it + 1) (size it)) as [E|E].
    - rewrite E, Z_mod_same_full. cbn. lia.
    - rewrite Z.mod_small by lia.
      destruct (Z.eqb_spec (index it + 1) 0); lia. }
  rewrite advance_returns_index. auto.
Qed.

(** C10: advance on a walker whose [steps] is 0 wraps the unsigned
    counter to [2 ^ w - 1], so that [rb_iter_done] then returns false
    and the walker is Active again; the position is updated as in any
    other call and the returned index lies in [0, capacity). *)
Theorem advance_when_exhausted (it : rb_iter) :
  wf w it -> steps it = 0 ->
  let it' := exec advance it in
  steps it' = 2 ^ w - 1 /\
  eval rb_iter_done it' = false /\
  state_of it' = Active /\
  index it' =
    match mode it with
    | O2N => (index it + 1) mod size it
    | N2O => if index it =? 0 then size it - 1 else index it - 1
    end /\
  eval advance it = index it' /\
  0 <= eval advance it < size it.
Proof.
  intros Hwf H0 it'.
  pose proof (wf_modulus it Hwf) as Hm.
  assert (Hs : steps it' = 2 ^ w - 1).
  { unfold it'; rewrite advance_steps, H0. now apply usub_zero_one. }
  assert (Hd : eval rb_iter_done it' = false).
  { rewrite done_eval, Hs. apply Z.eqb_neq. unfold modulus in Hm. lia. }
  split; [assumption|]. split; [assumption|].
  split; [unfold state_of; now rewrite Hd|].
  split.
  - unfold it'. destruct (mode it) eqn:E.
    + now apply index_old_to_new.
    + now apply index_new_to_old.
  - rewrite advance_returns_index. split; [reflexivity|].
    now apply index_in_range.
Qed.

End IterFacts.

(* ================================================================== *)
(** ** Concrete walkers, with a 64-bit [size_t] *)
(* ================================================================== *)

Ltac wf_concrete := unfold wf, modulus; cbn; lia.

Lemma advance_index_in_range_witness :
  wf 64 (mk_rb_iter RING_BUFFER_ITER_NEW_TO_OLD 1 5 2) /\
  eval (advance_n 64 4) (mk_rb_iter RING_BUFFER_ITER_NEW_TO_OLD 1 5 2)
    = [0; 4; 3; 2] /\
  Forall (fun i => 0 <= i < 5)
    (eval (advance_n 64 4) (mk_rb_iter RING_BUFFER_ITER_NEW_TO_OLD 1 5 2)).
Proof.
  assert (H : wf 64 (mk_rb_iter RING_BUFFER_ITER_NEW_TO_OLD 1 5 2))
    by wf_concrete.
  split; [exact H|]. split; [reflexivity|].
  exact (proj1 (proj2 (advance_index_in_range 64 _ 4 H))).
Defined.

Lemma advance_old_to_new_witness :
  wf 64 (mk_rb_iter RING_BUFFER_ITER_OLD_TO_NEW 4 5 3) /\
  eval (rb_iter_advance 64)
    (mk_rb_iter RING_BUFFER_ITER_OLD_TO_NEW 4 5 3) = 0.
Proof.
  assert (H : wf 64 (mk_rb_iter RING_BUFFER_ITER_OLD_TO_NEW 4 5 3))
    by wf_concrete.
  split; [exact H|].
  exact (proj2 (proj2 (advance_old_to_new 64 _ H eq_refl)) eq_refl eq_refl).
Defined.

Lemma advance_new_to_old_witness :
  wf 64 (mk_rb_iter RING_BUFFER_ITER_NEW_TO_OLD 0 5 3) /\
  eval (rb_iter_advance 64)
    (mk_rb_iter RING_BUFFER_ITER_NEW_TO_OLD 0 5 3) = 4.
Proof.
  assert (H : wf 64 (mk_rb_iter RING_BUFFER_ITER_NEW_TO_OLD 0 5 3))
    by wf_concrete.
  split; [exact H|].
  exact (proj2 (proj2 (advance_new_to_old 64 _ H eq_refl)) eq_refl eq_refl).
Defined.

Lemma advance_step_count_exhausts_witness :
  wf 64 (mk_rb_iter RING_BUFFER_ITER_OLD_TO_NEW 3 5 3) /\
  eval rb_iter_done
    (exec (advance_n 64 2) (mk_rb_iter RING_BUFFER_ITER_OLD_TO_NEW 3 5 3))
    = false /\
  eval rb_iter_done
    (exec (advance_n 64 3) (mk_rb_iter RING_BUFFER_ITER_OLD_TO_NEW 3 5 3))
    = true.
Proof.
  assert (H : wf 64 (mk_rb_iter RING_BUFFER_ITER_OLD_TO_NEW 3 5 3))
    by wf_concrete.
  destruct (advance_step_count_exhausts 64 _ H) as [Hbefore [Hafter _]].
  split; [exact H|]. split; [|exact Hafter].
  apply (Hbefore 2%nat). cbn. lia.
Defined.

(** C5 as stated fails: advance on an exhausted walker raises [steps]
    from 0 to [2 ^ 64 - 1] and the walker leaves the Exhausted state. *)
Lemma steps_increase_past_exhaustion :
  wf 64 (mk_rb_iter RING_BUFFER_ITER_OLD_TO_NEW 4 5 0) /\
  state_of (mk_rb_iter RING_BUFFER_ITER_OLD_TO_NEW 4 5 0) = Exhausted /\
  run 64 [Op_advance] (mk_rb_iter RING_BUFFER_ITER_OLD_TO_NEW 4 5 0)
    = mk_rb_iter RING_BUFFER_ITER_OLD_TO_NEW 0 5 18446744073709551615 /\
  state_of (run 64 [Op_advance]
              (mk_rb_iter RING_BUFFER_ITER_OLD_TO_NEW 4 5 0)) = Active /\
  ~ (forall (it : rb_iter) (ops : list op),
       wf 64 it ->
       0 <= steps (run 64 ops it) <= steps it /\
       (state_of it = Exhausted -> state_of (run 64 ops it) = Exhausted)).
Proof.
  assert (H : wf 64 (mk_rb_iter RING_BUFFER_ITER_OLD_TO_NEW 4 5 0))
    by wf_concrete.
  split; [exact H|]. repeat (split; [reflexivity|]).
  intros Hall.
  destruct (Hall _ [Op_advance] H) as [[_ Hle] _].
  vm_compute in Hle. apply Hle. reflexivity.
Qed.

Lemma contract_run_steps_decrease_witness :
  wf 64 (mk_rb_iter RING_BUFFER_ITER_OLD_TO_NEW 4 5 2) /\
  contract_run 64 (mk_rb_iter RING_BUFFER_ITER_OLD_TO_NEW 4 5 2)
                  (mk_rb_iter RING_BUFFER_ITER_OLD_TO_NEW 0 5 1) /\
  0 <= steps (mk_rb_iter RING_BUFFER_ITER_OLD_TO_NEW 0 5 1)
    <= steps (mk_rb_iter RING_BUFFER_ITER_OLD_TO_NEW 4 5 2).
Proof.
  assert (H : wf 64 (mk_rb_iter RING_BUFFER_ITER_OLD_TO_NEW 4 5 2))
    by wf_concrete.
  assert (R : contract_run 64 (mk_rb_iter RING_BUFFER_ITER_OLD_TO_NEW 4 5 2)
                              (mk_rb_iter RING_BUFFER_ITER_OLD_TO_NEW 0 5 1)).
  { eapply contract_cons; [apply contract_done|].
    eapply contract_cons; [apply contract_advance; reflexivity|].
    apply contract_nil. }
  split; [exact H|]. split; [exact R|].
  exact (proj1 (contract_run_steps_decrease 64 _ _ H R)).
Defined.

Lemma old_to_new_full_cycle_witness :
  wf 64 (mk_rb_iter RING_BUFFER_ITER_OLD_TO_NEW 3 5 1) /\
  1 < 5 /\
  index (exec (advance_n 64 5)
           (mk_rb_iter RING_BUFFER_ITER_OLD_TO_NEW 3 5 1)) = 3.
Proof.
  assert (H : wf 64 (mk_rb_iter RING_BUFFER_ITER_OLD_TO_NEW 3 5 1))
    by wf_concrete.
  split; [exact H|]. split; [lia|].
  apply (old_to_new_full_cycle 64 _ H eq_refl). cbn. lia.
Defined.

Lemma old_to_new_then_new_to_old_witness :
  wf 64 (mk_rb_iter RING_BUFFER_ITER_OLD_TO_NEW 4 5 7) /\
  0 <= 9 < modulus 64 /\
  eval (rb_iter_advance 64)
    (mk_rb_iter RING_BUFFER_ITER_NEW_TO_OLD
       (eval (rb_iter_advance 64)
          (mk_rb_iter RING_BUFFER_ITER_OLD_TO_NEW 4 5 7)) 5 9) = 4.
Proof.
  assert (H : wf 64 (mk_rb_iter RING_BUFFER_ITER_OLD_TO_NEW 4 5 7))
    by wf_concrete.
  assert (Hs : 0 <= 9 < modulus 64) by (unfold modulus; cbn; lia).
  split; [exact H|]. split; [exact Hs|].
  exact (proj1 (proj2 (old_to_new_then_new_to_old 64 _ 9 H eq_refl Hs))).
Defined.

Lemma advance_when_exhausted_witness :
  wf 64 (mk_rb_iter RING_BUFFER_ITER_NEW_TO_OLD 0 5 0) /\
  steps (exec (rb_iter_advance 64)
           (mk_rb_iter RING_BUFFER_ITER_NEW_TO_OLD 0 5 0))
    = 18446744073709551615 /\
  eval rb_iter_done
    (exec (rb_iter_advance 64)
       (mk_rb_iter RING_BUFFER_ITER_NEW_TO_OLD 0 5 0)) = false.
Proof.
  assert (H : wf 64 (mk_rb_iter RING_BUFFER_ITER_NEW_TO_OLD 0 5 0))
    by wf_concrete.
  destruct (advance_when_exhausted 64 _ H eq_refl) as [Hs [Hd _]].
  split; [exact H|]. split; [exact Hs | exact Hd].
Defined.

(* ================================================================== *)
(** ** Further properties of the validators *)
(* ================================================================== *)

Section ValidatorRanges.

Import Validator.

(** A range whose lower limit lies above its upper limit is accepted by
    the constructor and rejects every value. *)
Theorem RangeValidator_empty_range (lo hi v : Z) :
  hi < lo -> call (mkRangeValidator lo hi) v = false.
Proof.
  intros Hlt. apply not_true_is_false. intros Hc.
  apply RangeValidator_Z_closed_interval in Hc. lia.
Qed.

(** With both limits equal the validator accepts that one value only. *)
Theorem RangeValidator_single_value (a v : Z) :
  call (mkRangeValidator a a) v = true <-> v = a.
Proof. rewrite RangeValidator_Z_closed_interval. lia. Qed.

(** A value accepted for a range is accepted for every wider range. *)
Theorem RangeValidator_widen (lo hi lo' hi' v : Z) :
  lo' <= lo -> hi <= hi' ->
  call (mkRangeValidator lo hi) v = true ->
  call (mkRangeValidator lo' hi') v = true.
Proof.
  intros Hlo Hhi Hc. apply RangeValidator_Z_closed_interval in Hc.
  apply RangeValidator_Z_closed_interval. lia.
Qed.

(** Two validators accept a value together exactly when the validator
    of the overlap of their ranges accepts it. *)
Theorem RangeValidator_both (lo1 hi1 lo2 hi2 v : Z) :
  call (mkRangeValidator lo1 hi1) v && call (mkRangeValidator lo2 hi2) v =
  call (mkRangeValidator (Z.max lo1 lo2) (Z.min hi1 hi2)) v.
Proof.
  apply eq_true_iff_eq.
  rewrite andb_true_iff, !RangeValidator_Z_closed_interval. lia.
Qed.

(** On the values of an unsigned type of [bits] bits, the range
    validator from 0 to the largest value is the trivial validator. *)
Theorem RangeValidator_full_range_trivial (bits v : Z) :
  0 <= v < 2 ^ bits ->
  call (mkRangeValidator 0 (2 ^ bits - 1)) v = trivial_call v.
Proof.
  intros Hv. unfold trivial_call.
  apply RangeValidator_Z_closed_interval. lia.
Qed.

End ValidatorRanges.

Lemma RangeValidator_empty_range_witness :
  3 < 5 /\ Validator.call (Validator.mkRangeValidator 5 3) 4 = false.
Proof. split; [lia | apply RangeValidator_empty_range; lia]. Defined.

Lemma RangeValidator_widen_witness :
  0 <= 2 /\ 7 <= 9 /\
  Validator.call (Validator.mkRangeValidator 2 7) 7 = true /\
  Validator.call (Validator.mkRangeValidator 0 9) 7 = true.
Proof.
  split; [lia|]. split; [lia|]. split; [reflexivity|].
  apply (RangeValidator_widen 2 7 0 9 7); [lia | lia | reflexivity].
Defined.

Lemma RangeValidator_full_range_trivial_witness :
  0 <= 255 < 2 ^ 8 /\
  Validator.call (Validator.mkRangeValidator 0 (2 ^ 8 - 1)) 255
    = Validator.trivial_call 255.
Proof.
  assert (H : 0 <= 255 < 2 ^ 8) by (cbn; lia).
  split; [exact H | exact (RangeValidator_full_range_trivial 8 255 H)].
Defined.

(* ================================================================== *)
(** ** Further properties of the ring-buffer iterator *)
(* ================================================================== *)

Section IterWalks.

Variable w : Z.

Local Abbreviation advance := (rb_iter_advance w).
Local Abbreviation O2N := RING_BUFFER_ITER_OLD_TO_NEW.
Local Abbreviation N2O := RING_BUFFER_ITER_NEW_TO_OLD.

(** *** Arithmetic modulo the capacity *)

Lemma mod_eq_window (s x y : Z) :
  0 < s -> x mod s = y mod s -> - s < x - y < s -> x = y.
Proof.
  intros Hs He Hw.
  pose proof (Z.div_mod x s ltac:(lia)) as Hx.
  pose proof (Z.div_mod y s ltac:(lia)) as Hy.
  rewrite He in Hx.
  assert (Hd : x - y = s * (x / s - y / s)) by lia.
  assert (x / s - y / s = 0) by nia.
  lia.
Qed.

Lemma index_new_to_old_mod (it : rb_iter) :
  wf w it -> mode it = N2O ->
  index (exec advance it) = (index it - 1) mod size it.
Proof.
  intros Hwf Hm. rewrite index_new_to_old by assumption.
  unfold wf in Hwf.
  destruct (Z.eqb_spec (index it) 0) as [E|E].
  - apply Z.mod_unique_pos with (q := -1); lia.
  - symmetry; apply Z.mod_small; lia.
Qed.

(** Walking backward [n] slots from [index it]. *)
Lemma index_after_new_to_old (n : nat) (it : rb_iter) :
  wf w it -> mode it = N2O ->
  index (exec (advance_n w n) it) = (index it - Z.of_nat n) mod size it.
Proof.
  revert it; induction n as [|n IH]; intros it Hwf Hm.
  - cbn [advance_n exec ret snd Z.of_nat]. rewrite Z.sub_0_r.
    symmetry; apply Z.mod_small. unfold wf in Hwf; lia.
  - rewrite advance_n_S_exec, IH.
    + rewrite advance_size, index_new_to_old_mod by assumption.
      rewrite Zminus_mod_idemp_l. f_equal; lia.
    + now apply wf_advance.
    + now rewrite advance_mode.
Qed.

(** The position after [n] calls, in closed form: [n] slots further in
    the direction of the walk, modulo the capacity. *)
Theorem index_closed_form (n : nat) (it : rb_iter) :
  wf w it ->
  index (exec (advance_n w n) it) =
  match mode it with
  | O2N => (index it + Z.of_nat n) mod size it
  | N2O => (index it - Z.of_nat n) mod size it
  end.
Proof.
  intros Hwf. destruct (mode it) eqn:Hm.
  - now apply index_after.
  - now apply index_after_new_to_old.
Qed.

(** In either direction the walk has the capacity as a period: [size]
    further calls bring the position back to where it was, for every
    capacity from 1 on and from every point of the walk. *)
Theorem index_periodic (n : nat) (it : rb_iter) :
  wf w it ->
  index (exec (advance_n w (n + Z.to_nat (size it))) it) =
  index (exec (advance_n w n) it).
Proof.
  intros Hwf. rewrite !index_closed_form by assumption.
  assert (Hs : 0 < size it) by (unfold wf in Hwf; lia).
  rewrite Nat2Z.inj_add, Z2Nat.id by lia.
  destruct (mode it).
  - replace (index it + (Z.of_nat n + size it))
      with (index it + Z.of_nat n + 1 * size it) by ring.
    apply Z_mod_plus_full.
  - replace (index it - (Z.of_nat n + size it))
      with (index it - Z.of_nat n + (-1) * size it) by ring.
    apply Z_mod_plus_full.
Qed.

(** [n] calls in one direction, then [n] calls of an independent walker
    of the other direction placed at the position reached, lead back to
    the starting position; this holds from both directions. *)
Theorem walk_there_and_back (n : nat) (it : rb_iter) (s : Z) :
  wf w it -> 0 <= s < modulus w ->
  let back := mk_rb_iter
                match mode it with O2N => N2O | N2O => O2N end
                (index (exec (advance_n w n) it)) (size it) s in
  wf w back /\ index (exec (advance_n w n) back) = index it.
Proof.
  intros Hwf Hs back.
  assert (Hwfn : wf w (exec (advance_n w n) it)) by now apply wf_advance_n.
  assert (Hb : wf w back).
  { unfold wf in *; unfold back; cbn [index size steps].
    rewrite advance_n_size in Hwfn. lia. }
  split; [exact Hb|].
  rewrite index_closed_form by exact Hb.
  unfold back; cbn [mode index size].
  rewrite index_closed_form by exact Hwf.
  unfold wf in Hwf.
  destruct (mode it).
  - rewrite Zminus_mod_idemp_l.
    replace (index it + Z.of_nat n - Z.of_nat n) with (index it) by ring.
    apply Z.mod_small; lia.
  - rewrite Zplus_mod_idemp_l.
    replace (index it - Z.of_nat n + Z.of_nat n) with (index it) by ring.
    apply Z.mod_small; lia.
Qed.

(** One call maps different positions to different positions: two
    walkers of the same direction and capacity that reach the same slot
    came from the same slot. *)
Theorem advance_injective (a b : rb_iter) :
  wf w a -> wf w b -> mode a = mode b -> size a = size b ->
  index (exec advance a) = index (exec advance b) ->
  index a = index b.
Proof.
  intros Ha Hb Hm Hs He.
  destruct (mode a) eqn:Hma; symmetry in Hm.
  - rewrite !index_old_to_new in He by assumption. rewrite Hs in He.
    unfold wf in Ha, Hb.
    assert (index a + 1 = index b + 1); [|lia].
    apply (mod_eq_window (size b)); [lia | exact He | lia].
  - rewrite !index_new_to_old_mod in He by assumption. rewrite Hs in He.
    unfold wf in Ha, Hb.
    assert (index a - 1 = index b - 1); [|lia].
    apply (mod_eq_window (size b)); [lia | exact He | lia].
Qed.

(** *** The indices a run of calls returns *)

(** The [k]-th index returned is the position stored after [k + 1]
    calls. *)
Lemma advance_n_returns (n : nat) (it : rb_iter) :
  eval (advance_n w n) it =
  map (fun k => index (exec (advance_n w (S k)) it)) (seq 0 n).
Proof.
  revert it; induction n as [|n IH]; intros it.
  - reflexivity.
  - rewrite advance_n_S_eval, IH. cbn [seq map].
    f_equal.
    + rewrite advance_returns_index, advance_n_S_exec. reflexivity.
    + rewrite <- seq_shift, map_map.
      apply map_ext. intros k. now rewrite (advance_n_S_exec w (S k)).
Qed.

(** Fewer calls than the capacity never return a slot twice. *)
Lemma advance_n_NoDup (n : nat) (it : rb_iter) :
  wf w it -> Z.of_nat n <= size it -> NoDup (eval (advance_n w n) it).
Proof.
  intros Hwf Hn. rewrite advance_n_returns.
  apply NoDup_map_NoDup_ForallPairs; [|apply seq_NoDup].
  intros a b Ha Hb. apply in_seq in Ha, Hb.
  rewrite !index_closed_form by assumption.
  unfold wf in Hwf.
  destruct (mode it); intros He.
  - apply mod_eq_window in He; lia.
  - apply mod_eq_window in He; lia.
Qed.

(** A full pass visits every slot exactly once: by [size] calls in a
    row, in either direction, every slot of the buffer is returned, and
    none is returned twice. *)
Theorem full_pass_visits_each_slot_once (it : rb_iter) :
  wf w it ->
  let visited := eval (advance_n w (Z.to_nat (size it))) it in
  NoDup visited /\
  forall j : Z, 0 <= j < size it <-> In j visited.
Proof.
  intros Hwf visited.
  assert (Hs : 0 < size it) by (unfold wf in Hwf; lia).
  split; [apply advance_n_NoDup; [assumption | lia]|].
  intros j; split.
  - intros Hj. unfold visited. rewrite advance_n_returns.
    apply in_map_iff.
    destruct (mode it) eqn:Hm.
    + exists (Z.to_nat ((j - index it - 1) mod size it)).
      pose proof (Z.mod_pos_bound (j - index it - 1) (size it) Hs) as Hb.
      split; [|apply in_seq; lia].
      rewrite index_closed_form, Hm by assumption.
      rewrite Nat2Z.inj_succ, Z2Nat.id by lia.
      unfold Z.succ.
      replace (index it + ((j - index it - 1) mod size it + 1))
        with (index it + 1 + (j - index it - 1) mod size it) by ring.
      rewrite Zplus_mod_idemp_r.
      replace (index it + 1 + (j - index it - 1)) with j by ring.
      apply Z.mod_small; lia.
    + exists (Z.to_nat ((index it - 1 - j) mod size it)).
      pose proof (Z.mod_pos_bound (index it - 1 - j) (size it) Hs) as Hb.
      split; [|apply in_seq; lia].
      rewrite index_closed_form, Hm by assumption.
      rewrite Nat2Z.inj_succ, Z2Nat.id by lia.
      unfold Z.succ.
      replace (index it - ((index it - 1 - j) mod size it + 1))
        with (index it - 1 - (index it - 1 - j) mod size it) by ring.
      rewrite Zminus_mod_idemp_r.
      replace (index it - 1 - (index it - 1 - j)) with j by ring.
      apply Z.mod_small; lia.
  - intros Hin.
    pose proof (advance_n_returns_in_range w (Z.to_nat (size it)) it Hwf) as Hall.
    rewrite Forall_forall in Hall. now apply Hall.
Qed.

(** The indices returned do not depend on the step counter: walkers
    that differ in [steps] only return the same indices, call by call. *)
Theorem returned_indices_ignore_steps
    (n : nat) (m : rb_iter_mode) (p s a b : Z) :
  0 < s ->
  eval (advance_n w n) (mk_rb_iter m p s a) =
  eval (advance_n w n) (mk_rb_iter m p s b).
Proof.
  intros Hs. revert p a b; induction n as [|n IH]; intros p a b.
  - reflexivity.
  - rewrite !advance_n_S_eval. f_equal.
    + destruct m; reflexivity.
    + destruct m; cbn [exec rb_iter_advance bind get set_index set_steps
                       ret snd mode index size steps]; apply IH.
Qed.

(** *** The step counter over any number of calls *)

(** After [k] calls the counter holds [steps - k] modulo [2 ^ w],
    whether or not [k] exceeds the steps the walker was given. *)
Theorem steps_closed_form (k : nat) (it : rb_iter) :
  wf w it ->
  steps (exec (advance_n w k) it) = (steps it - Z.of_nat k) mod modulus w.
Proof.
  revert it; induction k as [|k IH]; intros it Hwf.
  - cbn [advance_n exec ret snd Z.of_nat]. rewrite Z.sub_0_r.
    symmetry; apply Z.mod_small. unfold wf in Hwf; lia.
  - rewrite advance_n_S_exec, IH by now apply wf_advance.
    rewrite advance_steps. unfold usub.
    rewrite Zminus_mod_idemp_l. f_equal; lia.
Qed.

(** A walker advanced beyond its steps is not done again until the
    counter has gone all the way round: after [k] calls it is done
    exactly when [k] is [steps] plus a multiple of [2 ^ w]. *)
Theorem done_after_calls (k : nat) (it : rb_iter) :
  wf w it ->
  (eval rb_iter_done (exec (advance_n w k) it) = true <->
   exists c : Z, Z.of_nat k = steps it + c * modulus w) /\
  (steps it < Z.of_nat k < steps it + modulus w ->
   eval rb_iter_done (exec (advance_n w k) it) = false).
Proof.
  intros Hwf.
  pose proof (wf_modulus w it Hwf) as Hm.
  assert (Hiff : eval rb_iter_done (exec (advance_n w k) it) = true <->
                 exists c : Z, Z.of_nat k = steps it + c * modulus w).
  { rewrite done_eval, steps_closed_form, Z.eqb_eq by assumption.
    rewrite Z.mod_divide by lia. split.
    - intros [c Hc]. exists (- c). lia.
    - intros [c Hc]. exists (- c). lia. }
  split; [exact Hiff|].
  intros Hk. apply not_true_is_false. intros Hd.
  apply Hiff in Hd. destruct Hd as [c Hc].
  assert (Hc' : c <= 0 \/ 1 <= c) by lia.
  destruct Hc' as [Hc' | Hc']; nia.
Qed.

(** *** Queries between the calls *)

(** Calls of [rb_iter_done] interleaved with the calls of
    [rb_iter_advance] do not disturb the walk: any sequence of the two
    operations leaves the walker as the advances alone would, and with
    it the direction and the capacity it started with. *)
Theorem run_is_its_advances (ops : list op) (it : rb_iter) :
  wf w it ->
  let calls :=
    length (filter (fun o => match o with
                             | Op_advance => true
                             | Op_done => false
                             end) ops) in
  run w ops it = exec (advance_n w calls) it /\
  wf w (run w ops it) /\
  mode (run w ops it) = mode it /\
  size (run w ops it) = size it.
Proof.
  intros Hwf calls.
  assert (E : run w ops it = exec (advance_n w calls) it).
  { subst calls. clear Hwf. revert it.
    induction ops as [|o ops IH]; intros it.
    - reflexivity.
    - change (run w (o :: ops) it) with (run w ops (exec_op w o it)).
      destruct o; cbn [filter length exec_op].
      + rewrite done_exec. apply IH.
      + rewrite advance_n_S_exec. apply IH. }
  rewrite E. split; [reflexivity|].
  split; [now apply wf_advance_n|].
  split; [apply advance_n_mode | apply advance_n_size].
Qed.

(** *** Positions outside the buffer *)

(** The forward step does not rely on the position being a slot: from
    any value of [size_t] at or beyond the capacity, one old-to-new call
    returns a slot of the buffer and leaves a well-formed walker. *)
Theorem old_to_new_out_of_range (it : rb_iter) :
  mode it = O2N ->
  0 < size it <= index it -> index it < modulus w ->
  0 <= eval advance it < size it /\
  wf w (exec advance it).
Proof.
  intros Hm Hs Hi.
  assert (Hr : 0 <= index (exec advance it) < size it).
  { rewrite advance_index_old_to_new by assumption.
    unfold urem. apply Z.mod_pos_bound. lia. }
  rewrite advance_returns_index. split; [exact Hr|].
  unfold wf. rewrite advance_size, advance_steps.
  repeat split; try lia; apply usub_bounds; lia.
Qed.

(** The backward step has no such effect: from a position at or beyond
    the capacity (every position, when the capacity is 0), one
    new-to-old call returns the position less one modulo [2 ^ w], which
    is a slot of the buffer only when the position was the capacity
    itself. *)
Theorem new_to_old_out_of_range (it : rb_iter) :
  mode it = N2O ->
  0 <= size it <= index it -> index it < modulus w ->
  eval advance it = (index it - 1) mod modulus w /\
  (0 <= eval advance it < size it <-> index it = size it /\ 0 < size it).
Proof.
  intros Hm Hs Hi.
  assert (Hr : eval advance it = (index it - 1) mod modulus w).
  { rewrite advance_returns_index, advance_index_new_to_old by assumption.
    destruct (Z.eqb_spec (index it) 0) as [E|E]; [|reflexivity].
    unfold usub. f_equal. lia. }
  split; [exact Hr|]. rewrite Hr.
  destruct (Z.eq_dec (index it) 0) as [E|E].
  - assert (Hs0 : size it = 0) by lia.
    pose proof (Z.mod_pos_bound (index it - 1) (modulus w) ltac:(lia)).
    lia.
  - rewrite Z.mod_small by lia. lia.
Qed.

End IterWalks.

(** *** Concrete walkers for the properties above *)

Lemma index_closed_form_witness :
  wf 64 (mk_rb_iter RING_BUFFER_ITER_NEW_TO_OLD 1 5 9) /\
  index (exec (advance_n 64 7)
           (mk_rb_iter RING_BUFFER_ITER_NEW_TO_OLD 1 5 9)) = (1 - 7) mod 5.
Proof.
  assert (H : wf 64 (mk_rb_iter RING_BUFFER_ITER_NEW_TO_OLD 1 5 9))
    by wf_concrete.
  split; [exact H | exact (index_closed_form 64 7 _ H)].
Defined.

Lemma index_periodic_witness :
  wf 64 (mk_rb_iter RING_BUFFER_ITER_NEW_TO_OLD 1 5 9) /\
  index (exec (advance_n 64 (2 + 5))
           (mk_rb_iter RING_BUFFER_ITER_NEW_TO_OLD 1 5 9)) =
  index (exec (advance_n 64 2)
           (mk_rb_iter RING_BUFFER_ITER_NEW_TO_OLD 1 5 9)).
Proof.
  assert (H : wf 64 (mk_rb_iter RING_BUFFER_ITER_NEW_TO_OLD 1 5 9))
    by wf_concrete.
  split; [exact H | exact (index_periodic 64 2 _ H)].
Defined.

Lemma walk_there_and_back_witness :
  wf 64 (mk_rb_iter RING_BUFFER_ITER_NEW_TO_OLD 1 5 9) /\
  0 <= 4 < modulus 64 /\
  index (exec (advance_n 64 3)
           (mk_rb_iter RING_BUFFER_ITER_OLD_TO_NEW
              (index (exec (advance_n 64 3)
                        (mk_rb_iter RING_BUFFER_ITER_NEW_TO_OLD 1 5 9)))
              5 4)) = 1.
Proof.
  assert (H : wf 64 (mk_rb_iter RING_BUFFER_ITER_NEW_TO_OLD 1 5 9))
    by wf_concrete.
  assert (Hs : 0 <= 4 < modulus 64) by (unfold modulus; cbn; lia).
  split; [exact H|]. split; [exact Hs|].
  exact (proj2 (walk_there_and_back 64 3 _ 4 H Hs)).
Defined.

Lemma advance_injective_witness :
  wf 64 (mk_rb_iter RING_BUFFER_ITER_OLD_TO_NEW 4 5 1) /\
  wf 64 (mk_rb_iter RING_BUFFER_ITER_OLD_TO_NEW 4 5 8) /\
  index (exec (rb_iter_advance 64)
           (mk_rb_iter RING_BUFFER_ITER_OLD_TO_NEW 4 5 1)) =
  index (exec (rb_iter_advance 64)
           (mk_rb_iter RING_BUFFER_ITER_OLD_TO_NEW 4 5 8)) /\
  4 = 4.
Proof.
  assert (Ha : wf 64 (mk_rb_iter RING_BUFFER_ITER_OLD_TO_NEW 4 5 1))
    by wf_concrete.
  assert (Hb : wf 64 (mk_rb_iter RING_BUFFER_ITER_OLD_TO_NEW 4 5 8))
    by wf_concrete.
  split; [exact Ha|]. split; [exact Hb|]. split; [reflexivity|].
  exact (advance_injective 64 _ _ Ha Hb eq_refl eq_refl eq_refl).
Defined.

Lemma full_pass_visits_each_slot_once_witness :
  wf 64 (mk_rb_iter RING_BUFFER_ITER_NEW_TO_OLD 1 5 5) /\
  eval (advance_n 64 5) (mk_rb_iter RING_BUFFER_ITER_NEW_TO_OLD 1 5 5)
    = [0; 4; 3; 2; 1] /\
  NoDup (eval (advance_n 64 5)
           (mk_rb_iter RING_BUFFER_ITER_NEW_TO_OLD 1 5 5)).
Proof.
  assert (H : wf 64 (mk_rb_iter RING_BUFFER_ITER_NEW_TO_OLD 1 5 5))
    by wf_concrete.
  split; [exact H|]. split; [reflexivity|].
  exact (proj1 (full_pass_visits_each_slot_once 64 _ H)).
Defined.

Lemma returned_indices_ignore_steps_witness :
  0 < 5 /\
  eval (advance_n 64 3) (mk_rb_iter RING_BUFFER_ITER_OLD_TO_NEW 3 5 0) =
  eval (advance_n 64 3) (mk_rb_iter RING_BUFFER_ITER_OLD_TO_NEW 3 5 7).
Proof.
  assert (H : 0 < 5) by lia.
  split; [exact H|].
  exact (returned_indices_ignore_steps 64 3 _ 3 5 0 7 H).
Defined.

Lemma steps_closed_form_witness :
  wf 64 (mk_rb_iter RING_BUFFER_ITER_OLD_TO_NEW 3 5 2) /\
  steps (exec (advance_n 64 3)
           (mk_rb_iter RING_BUFFER_ITER_OLD_TO_NEW 3 5 2)) =
  (2 - 3) mod modulus 64.
Proof.
  assert (H : wf 64 (mk_rb_iter RING_BUFFER_ITER_OLD_TO_NEW 3 5 2))
    by wf_concrete.
  split; [exact H | exact (steps_closed_form 64 3 _ H)].
Defined.

Lemma done_after_calls_witness :
  wf 64 (mk_rb_iter RING_BUFFER_ITER_OLD_TO_NEW 3 5 2) /\
  2 < 4 < 2 + modulus 64 /\
  eval rb_iter_done
    (exec (advance_n 64 4)
       (mk_rb_iter RING_BUFFER_ITER_OLD_TO_NEW 3 5 2)) = false.
Proof.
  assert (H : wf 64 (mk_rb_iter RING_BUFFER_ITER_OLD_TO_NEW 3 5 2))
    by wf_concrete.
  assert (Hk : 2 < 4 < 2 + modulus 64) by (unfold modulus; cbn; lia).
  split; [exact H|]. split; [exact Hk|].
  exact (proj2 (done_after_calls 64 4 _ H) Hk).
Defined.

Lemma run_is_its_advances_witness :
  wf 64 (mk_rb_iter RING_BUFFER_ITER_OLD_TO_NEW 3 5 2) /\
  run 64 [Op_done; Op_advance; Op_done; Op_done; Op_advance]
    (mk_rb_iter RING_BUFFER_ITER_OLD_TO_NEW 3 5 2) =
  exec (advance_n 64 2) (mk_rb_iter RING_BUFFER_ITER_OLD_TO_NEW 3 5 2).
Proof.
  assert (H : wf 64 (mk_rb_iter RING_BUFFER_ITER_OLD_TO_NEW 3 5 2))
    by wf_concrete.
  split; [exact H|].
  exact (proj1 (run_is_its_advances 64
                  [Op_done; Op_advance; Op_done; Op_done; Op_advance] _ H)).
Defined.

Lemma old_to_new_out_of_range_witness :
  0 < 5 <= 12 /\ 12 < modulus 64 /\
  0 <= eval (rb_iter_advance 64)
         (mk_rb_iter RING_BUFFER_ITER_OLD_TO_NEW 12 5 1) < 5.
Proof.
  assert (Hs : 0 < 5 <= 12) by lia.
  assert (Hi : 12 < modulus 64) by (unfold modulus; cbn; lia).
  split; [exact Hs|]. split; [exact Hi|].
  exact (proj1 (old_to_new_out_of_range 64
                  (mk_rb_iter RING_BUFFER_ITER_OLD_TO_NEW 12 5 1)
                  eq_refl Hs Hi)).
Defined.

Lemma new_to_old_out_of_range_witness :
  0 <= 0 <= 0 /\ 0 < modulus 64 /\
  eval (rb_iter_advance 64)
    (mk_rb_iter RING_BUFFER_ITER_NEW_TO_OLD 0 0 1) = (0 - 1) mod modulus 64.
Proof.
  assert (Hs : 0 <= 0 <= 0) by lia.
  assert (Hi : 0 < modulus 64) by (unfold modulus; cbn; lia).
  split; [exact Hs|]. split; [exact Hi|].
  exact (proj1 (new_to_old_out_of_range 64
                  (mk_rb_iter RING_BUFFER_ITER_NEW_TO_OLD 0 0 1)
                  eq_refl Hs Hi)).
Defined.
